(** * Parser combinators of plex-1.py: a shallow embedding

    Every combinator of the Python module is transcribed as a Rocq
    function.  Python objects are values of [pyval]; the failure sentinel
    is Python's [None].  A call that loops forever or raises has no
    result: computations live in a fuel-indexed option monad [M], and
    [returns m r] says that the call [m] returns the result [r]. *)

From Stdlib Require Import ZArith List String Ascii Bool Lia.
Import ListNotations.
Open Scope string_scope.
Open Scope list_scope.
Open Scope Z_scope.

(** ** Python values *)

#[local] Set Warnings "-register-all".

Inductive pyval : Type :=
| PNone : pyval
| PInt : Z -> pyval
| PStr : string -> pyval
| PTuple : list pyval -> pyval
| PList : list pyval -> pyval.

(** [x is None] *)
Definition is_None (x : pyval) : bool :=
  match x with PNone => true | _ => false end.

(** ** Calls that may not return *)

Module Run.

(** A computation receives a budget and answers [None] when the budget
    does not suffice (or when the call raises). *)
Definition M (A : Type) : Type := nat -> option A.

Definition ret {A} (a : A) : M A := fun _ => Some a.

Definition bind {A B} (m : M A) (k : A -> M B) : M B :=
  fun fuel => match m fuel with
              | Some a => k a fuel
              | None => None
              end.

(** an uncaught exception *)
Definition raise {A} : M A := fun _ => None.

End Run.

Notation "x <- m ;; k" := (Run.bind m (fun x => k))
  (at level 61, m at next level, right associativity).
Notation "' pat <- m ;; k" := (Run.bind m (fun x => match x with pat => k end))
  (at level 61, pat pattern, m at next level, right associativity).

Import Run.

(** The call [m] returns [a]: every large enough budget yields [a]. *)
Definition returns {A} (m : M A) (a : A) : Prop :=
  exists n0 : nat, forall n : nat, (n0 <= n)%nat -> m n = Some a.

(** The call [m] never returns. *)
Definition hangs {A} (m : M A) : Prop := forall n : nat, m n = None.

(** ** The Parser class *)

(** What a combinator invokes as [parser(s, idx)]: the result is the
    pair [(value, offset)], the value [None] meaning failure. *)
Definition pfun : Type := string -> Z -> M (pyval * Z).

Record Parser : Type := mkParser { func : pfun }.

(** [Parser.__call__(self, text, pos=0)] *)
Definition Parser_call (self : Parser) (text : string) (pos : option Z)
  : M (pyval * Z) :=
  func self text (match pos with Some i => i | None => 0 end).

(** A Parser object called with both arguments. *)
Definition invoke (p : Parser) : string -> Z -> M (pyval * Z) :=
  fun s idx => Parser_call p s (Some idx).
Coercion invoke : Parser >-> Funclass.

(** ** The combinators *)

Definition seq (parser1 parser2 : pfun) : Parser :=
  mkParser (fun s idx =>
    '(x, idx2) <- parser1 s idx ;;
    '(y, idx3) <- parser2 s idx2 ;;
    if is_None x || is_None y then ret (PNone, idx)
    else ret (PTuple [x; y], idx3)).

Definition choice (parser1 parser2 : pfun) : Parser :=
  mkParser (fun s idx =>
    x <- parser1 s idx ;;
    if negb (is_None (fst x)) then ret x
    else parser2 s idx).

Definition compose (parser1 parser2 : pfun) : Parser :=
  mkParser (fun s idx =>
    '(x, idx2) <- parser1 s idx ;;
    if is_None x then ret (PNone, idx)
    else parser2 s idx2).

Definition between (parser1 parser2 parser3 : pfun) : Parser :=
  mkParser (fun s idx =>
    '(x, idx2) <- parser1 s idx ;;
    if is_None x then ret (PNone, idx) else
    '(y, idx3) <- parser2 s idx2 ;;
    if is_None y then ret (PNone, idx) else
    '(z, idx4) <- parser3 s idx3 ;;
    if is_None z then ret (PNone, idx) else
    ret (y, idx3)).

(** [f] receives [x], the whole tuple returned by the parser. *)
Definition fmap (f : pyval -> pyval) (parser : pfun) : Parser :=
  mkParser (fun s idx =>
    x <- parser s idx ;;
    if is_None (fst x) then ret (PNone, idx)
    else ret (f (PTuple [fst x; PInt (snd x)]), snd x)).

Definition pure (x : pyval) : Parser :=
  mkParser (fun s idx => ret (x, idx)).

Definition bind (parser : pfun) (f : pyval -> pfun) : Parser :=
  mkParser (fun s idx =>
    '(x, idx2) <- parser s idx ;;
    if is_None x then ret (PNone, idx)
    else f x s idx2).

(** The [while True] loop of [many]: [result] and [idx] are the loop
    variables, [n] bounds the number of iterations still allowed. *)
Fixpoint many_loop (parser : pfun) (s : string) (n : nat)
    (result : list pyval) (idx : Z) : M (list pyval * Z) :=
  match n with
  | O => raise
  | S n' =>
      '(x, idx2) <- parser s idx ;;
      if is_None x then ret (result, idx)
      else many_loop parser s n' (result ++ [x]) idx2
  end.

(** [many]: the budget of the call bounds the iterations of the loop and
    is handed to every call of [parser]. *)
Definition many (parser : pfun) : Parser :=
  mkParser (fun s idx fuel =>
    match many_loop parser s fuel [] idx fuel with
    | Some (result, idx') => Some (PList result, idx')
    | None => None
    end).

(** ** Python strings *)

(** [len(text)] *)
Definition len (text : string) : Z := Z.of_nat (String.length text).

(** [text[b:]] for an offset [0 <= b] *)
Definition drop (b : Z) (text : string) : string :=
  substring (Z.to_nat b) (String.length text - Z.to_nat b) text.

(** [text[pos]]: a negative index counts from the end, an index outside
    [-len(text) .. len(text)-1] raises IndexError. *)
Definition py_index (text : string) (pos : Z) : option ascii :=
  if (0 <=? pos) && (pos <? len text) then String.get (Z.to_nat pos) text
  else if (- len text <=? pos) && (pos <? 0) then
    String.get (Z.to_nat (pos + len text)) text
  else None.

(** [text.startswith(prefix, start)]: [start] is adjusted like a slice
    bound, and a prefix that does not fit after it never matches. *)
Definition py_startswith (text prefix : string) (start : Z) : bool :=
  let b := if start <? 0 then Z.max 0 (start + len text) else start in
  if len text <? b + len prefix then false
  else String.prefix prefix (drop b text).

(** ** The parsers of the demonstration *)

Definition parse_a : pfun := fun text pos =>
  if pos <? len text then
    match py_index text pos with
    | Some c => if Ascii.eqb c "a"%char then ret (PStr "a", pos + 1)
                else ret (PNone, pos)
    | None => raise
    end
  else ret (PNone, pos).

Definition parse_true_fn : pfun := fun text pos =>
  if py_startswith text "true" pos then ret (PStr "true", pos + 4)
  else ret (PNone, pos).

Definition parse_false : pfun := fun text pos =>
  if py_startswith text "false" pos then ret (PStr "false", pos + 5)
  else ret (PNone, pos).

Definition parse_letter_a : Parser := mkParser parse_a.
(** the module rebinds the name [parse_true] to the wrapped function *)
Definition parse_true : Parser := mkParser parse_true_fn.

(** [lambda x: pure(x + "b")] of the demonstration: [+] concatenates two
    strings and raises TypeError for any other left operand. *)
Definition add_b : pyval -> pfun := fun x =>
  match x with
  | PStr a => pure (PStr (a ++ "b")%string)
  | _ => fun _ _ => raise
  end.

(** ** The pattern matcher *)

(** The [re] module is not part of the program.  A compiled pattern is
    represented by its scanning function [sre]: [sre pat s b] is the end
    of the match of [pat] anchored at position [b] of [s], if any. *)
Definition engine : Type := string -> string -> Z -> option Z.

(** What every scan guarantees: the match is a span of the text that
    begins where the scan was started. *)
Definition engine_span (sre : engine) : Prop :=
  forall pat s b e, 0 <= b <= len s -> sre pat s b = Some e -> b <= e <= len s.

(** [compiled_re.match(s, pos)]: the start position is first brought into
    [0 .. len(s)]; the answer is [(match.group(0), match.end())]. *)
Definition Pattern_match (sre : engine) (pat s : string) (pos : Z)
  : option (string * Z) :=
  let b := if pos <? 0 then 0 else if len s <? pos then len s else pos in
  match sre pat s b with
  | Some e => Some (substring (Z.to_nat b) (Z.to_nat (e - b)) s, e)
  | None => None
  end.

(** [regex] returns the bare inner function, not a [Parser]. *)
Definition regex (sre : engine) (regex_str : string) : pfun := fun s idx =>
  match Pattern_match sre regex_str s idx with
  | Some (group0, match_end) => ret (PStr group0, match_end)
  | None => ret (PNone, idx)
  end.

(** The scan of a pattern without metacharacters: the pattern itself has
    to be found at [b]. *)
Definition literal_sre : engine := fun pat s b =>
  if (len s <? b + len pat) then None
  else if String.prefix pat (drop b s) then Some (b + len pat) else None.

(** ** Outcomes of a call *)

(** The call returns the value [v], which is not the sentinel, and the
    offset [j]. *)
Definition succeeds (m : M (pyval * Z)) (v : pyval) (j : Z) : Prop :=
  returns m (v, j) /\ v <> PNone.

(** The call returns the sentinel and the offset [j]. *)
Definition fails (m : M (pyval * Z)) (j : Z) : Prop :=
  returns m (PNone, j).

(** Failure contract of a parser: a failure reports the start offset. *)
Definition failure_contract (p : pfun) : Prop :=
  forall s i n j, p s i n = Some (PNone, j) -> j = i.

(** Success contract of a parser: a success never moves backwards. *)
Definition success_contract (p : pfun) : Prop :=
  forall s i n v j, p s i n = Some (v, j) -> v <> PNone -> i <= j.

(** The attempts of [many(p)] from offset [i]: successes with the values
    [xs], in order, up to the offset [j], where the next attempt fails. *)
Inductive many_run (p : pfun) (s : string) : Z -> list pyval -> Z -> Prop :=
| many_run_stop (i i' : Z) :
    fails (p s i) i' -> many_run p s i [] i
| many_run_step (i : Z) (x : pyval) (i2 : Z) (xs : list pyval) (j : Z) :
    succeeds (p s i) x i2 -> many_run p s i2 xs j ->
    many_run p s i (x :: xs) j.

(** Forward progress: every success ends strictly after its start. *)
Definition forward_progress (p : pfun) : Prop :=
  forall s i v j, succeeds (p s i) v j -> i < j.

(** [lambda s, idx: ("x", idx + 1)]: succeeds everywhere, one offset
    further each time, without looking at the text. *)
Definition step_always : pfun := fun s idx => ret (PStr "x", idx + 1).

(** * Reasoning about calls *)

Lemma is_None_true (x : pyval) : is_None x = true <-> x = PNone.
Proof. destruct x; simpl; split; intro H; congruence. Qed.

Lemma is_None_false (x : pyval) : is_None x = false <-> x <> PNone.
Proof. destruct x; simpl; split; intro H; congruence. Qed.


Section Returns.
Context {A B : Type}.

Lemma returns_ret (a : A) : returns (ret a) a.
Proof. exists 0%nat; reflexivity. Qed.

Lemma returns_bind (m : M A) (k : A -> M B) (a : A) (b : B) :
  returns m a -> returns (k a) b -> returns (Run.bind m k) b.
Proof.
  intros [n1 H1] [n2 H2]. exists (Nat.max n1 n2). intros n Hn.
  unfold Run.bind. rewrite H1 by lia. apply H2; lia.
Qed.

Lemma returns_bind_inv (m : M A) (k : A -> M B) (a : A) (b : B) :
  returns m a -> returns (Run.bind m k) b -> returns (k a) b.
Proof.
  intros [n1 H1] [n2 H2]. exists (Nat.max n1 n2). intros n Hn.
  specialize (H2 n ltac:(lia)). unfold Run.bind in H2.
  rewrite H1 in H2 by lia. exact H2.
Qed.

Lemma returns_det (m : M A) (a a' : A) :
  returns m a -> returns m a' -> a = a'.
Proof.
  intros [n1 H1] [n2 H2].
  specialize (H1 (Nat.max n1 n2) ltac:(lia)).
  specialize (H2 (Nat.max n1 n2) ltac:(lia)). congruence.
Qed.

Lemma hangs_not_returns (m : M A) : hangs m -> ~ exists a, returns m a.
Proof. intros Hh [a [n Hn]]. specialize (Hn n (Nat.le_refl n)). rewrite Hh in Hn. discriminate. Qed.

End Returns.

(** A call on a literal input evaluates whatever the budget is. *)
Ltac by_evaluation := exists 0%nat; intros; reflexivity.

(** One step through a [<-] whose call is known to return. *)
Ltac step_with H := eapply returns_bind; [exact H | cbn].

(** Expose the budget-passing of a call in hypothesis [H]. *)
Ltac open_call H :=
  unfold invoke, Parser_call, func, Run.bind, ret in H.

(** * Parser.__call__ *)

(** C10: calling a Parser without a start position parses from offset 0:
    [p(s)] runs the wrapped function on [s] at offset 0, and so [p(s)] is
    [p(s, 0)]. *)
Theorem Parser_call_default_pos (p : Parser) (s : string) :
  Parser_call p s None = func p s 0 /\
  Parser_call p s None = Parser_call p s (Some 0).
Proof. split; reflexivity. Qed.

(** * pure *)

Lemma pure_returns (x : pyval) (s : string) (i : Z) :
  returns (pure x s i) (x, i).
Proof. apply returns_ret. Qed.

(** C3, as stated, fails for the value [None]: [pure(None)] returns the
    failure sentinel, on the empty text as on any other. *)
Lemma pure_None_not_success :
  fails (pure PNone "" 0) 0 /\ ~ succeeds (pure PNone "" 0) PNone 0.
Proof.
  split.
  - apply pure_returns.
  - intros [_ H]. now apply H.
Qed.

(** C3 (amended): for every value [x] other than [None], every text [s]
    (the empty one too) and every offset [i], [pure(x)(s, i)] succeeds
    with [x] at the same offset [i]. *)
Theorem pure_succeeds_in_place (x : pyval) (s : string) (i : Z) :
  x <> PNone -> succeeds (pure x s i) x i.
Proof. intro Hx. split; [apply pure_returns | exact Hx]. Qed.

Lemma pure_succeeds_in_place_witness :
  PStr "a" <> PNone /\ succeeds (pure (PStr "a") "" 7) (PStr "a") 7.
Proof.
  split; [discriminate |].
  apply (pure_succeeds_in_place (PStr "a") "" 7). discriminate.
Defined.

(** * fmap *)

Lemma fmap_fails (f : pyval -> pyval) (p : pfun) (s : string) (i j : Z) :
  fails (p s i) j -> fails (fmap f p s i) i.
Proof.
  intro H. unfold fails, invoke, Parser_call, fmap, func.
  eapply returns_bind; [exact H | apply returns_ret].
Qed.

(** C1, as stated, fails: with the identity for [f] the value returned
    is the pair [("a", 1)], not ["a"]. *)
Lemma fmap_not_on_value :
  succeeds (parse_letter_a "abc" 0) (PStr "a") 1 /\
  ~ succeeds (fmap (fun x => x) parse_letter_a "abc" 0) (PStr "a") 1.
Proof.
  split.
  - split; [by_evaluation | discriminate].
  - intros [H _].
    assert (H' : returns (fmap (fun x => x) parse_letter_a "abc" 0)
                         (PTuple [PStr "a"; PInt 1], 1)) by by_evaluation.
    pose proof (returns_det _ _ _ H H') as E. discriminate E.
Qed.

(** C1 (amended): if [p] succeeds at [(s, i)] with value [v] and end
    offset [j], then [fmap(f, p)(s, i)] returns [f((v, j))] paired with
    [j]: [f] is applied to the whole result pair of the parser. *)
Theorem fmap_on_result_pair (f : pyval -> pyval) (p : pfun) (s : string)
    (i : Z) (v : pyval) (j : Z) :
  succeeds (p s i) v j ->
  returns (fmap f p s i) (f (PTuple [v; PInt j]), j).
Proof.
  intros [H Hv]. unfold invoke, Parser_call, fmap, func.
  eapply returns_bind; [exact H | cbn].
  apply is_None_false in Hv. rewrite Hv. apply returns_ret.
Qed.

Lemma fmap_on_result_pair_witness :
  succeeds (parse_letter_a "abc" 0) (PStr "a") 1 /\
  returns (fmap (fun x => PList [x]) parse_letter_a "abc" 0)
          (PList [PTuple [PStr "a"; PInt 1]], 1).
Proof.
  assert (H : succeeds (parse_letter_a "abc" 0) (PStr "a") 1)
    by (split; [by_evaluation | discriminate]).
  split; [exact H |].
  exact (fmap_on_result_pair (fun x => PList [x]) parse_letter_a "abc" 0 (PStr "a") 1 H).
Defined.

(** * choice *)

Lemma choice_first (p1 p2 : pfun) (s : string) (i : Z) (v : pyval) (j : Z) :
  succeeds (p1 s i) v j -> succeeds (choice p1 p2 s i) v j.
Proof.
  intros [H Hv]. split; [| exact Hv].
  unfold invoke, Parser_call, choice, func.
  eapply returns_bind; [exact H | cbn].
  apply is_None_false in Hv. rewrite Hv. apply returns_ret.
Qed.

Lemma choice_second (p1 p2 : pfun) (s : string) (i j : Z) (r : pyval * Z) :
  fails (p1 s i) j ->
  returns (choice p1 p2 s i) r <-> returns (p2 s i) r.
Proof.
  intro H. unfold invoke, Parser_call, choice, func. split; intro Hr.
  - exact (returns_bind_inv _ _ _ _ H Hr).
  - eapply returns_bind; [exact H | exact Hr].
Qed.

(** C7: if [p1] succeeds at [(s, i)], [choice(p1, p2)(s, i)] returns the
    result of [p1] unmodified, whatever [p2] is; if [p1] fails, it
    returns exactly what [p2] returns at the original offset [i],
    success or failure. *)
Theorem choice_contract (p1 p2 : pfun) (s : string) (i : Z) :
  (forall v j, succeeds (p1 s i) v j -> succeeds (choice p1 p2 s i) v j) /\
  (forall j, fails (p1 s i) j ->
     forall r, returns (choice p1 p2 s i) r <-> returns (p2 s i) r).
Proof.
  split.
  - intros v j. apply choice_first.
  - intros j H r. exact (choice_second p1 p2 s i j r H).
Qed.

Lemma choice_contract_witness :
  succeeds (parse_letter_a "atrue" 0) (PStr "a") 1 /\
  succeeds (choice parse_letter_a parse_true "atrue" 0) (PStr "a") 1 /\
  fails (parse_letter_a "true" 0) 0 /\
  returns (choice parse_letter_a parse_true "true" 0) (PStr "true", 4).
Proof.
  assert (H1 : succeeds (parse_letter_a "atrue" 0) (PStr "a") 1)
    by (split; [by_evaluation | discriminate]).
  assert (H2 : fails (parse_letter_a "true" 0) 0) by by_evaluation.
  split; [exact H1 | split; [| split; [exact H2 |]]].
  - exact (proj1 (choice_contract parse_letter_a parse_true "atrue" 0) _ _ H1).
  - apply (proj2 (choice_contract parse_letter_a parse_true "true" 0) 0 H2).
    by_evaluation.
Defined.

(** * between *)

Lemma between_fails_first (p1 p2 p3 : pfun) (s : string) (i j : Z) :
  fails (p1 s i) j -> fails (between p1 p2 p3 s i) i.
Proof.
  intro H. unfold fails, invoke, Parser_call, between, func.
  step_with H. apply returns_ret.
Qed.

Lemma between_fails_second (p1 p2 p3 : pfun) (s : string) (i : Z)
    (v1 : pyval) (j k : Z) :
  succeeds (p1 s i) v1 j -> fails (p2 s j) k -> fails (between p1 p2 p3 s i) i.
Proof.
  intros [H1 Hv1] H2. unfold fails, invoke, Parser_call, between, func.
  apply is_None_false in Hv1.
  step_with H1. rewrite Hv1. step_with H2. apply returns_ret.
Qed.

Lemma between_fails_third (p1 p2 p3 : pfun) (s : string) (i : Z)
    (v1 : pyval) (j : Z) (v2 : pyval) (k l : Z) :
  succeeds (p1 s i) v1 j -> succeeds (p2 s j) v2 k -> fails (p3 s k) l ->
  fails (between p1 p2 p3 s i) i.
Proof.
  intros [H1 Hv1] [H2 Hv2] H3. unfold fails, invoke, Parser_call, between, func.
  apply is_None_false in Hv1, Hv2.
  step_with H1. rewrite Hv1. step_with H2. rewrite Hv2. step_with H3.
  apply returns_ret.
Qed.

Lemma between_succeeds (p1 p2 p3 : pfun) (s : string) (i : Z)
    (v1 : pyval) (j : Z) (v2 : pyval) (k : Z) (v3 : pyval) (l : Z) :
  succeeds (p1 s i) v1 j -> succeeds (p2 s j) v2 k -> succeeds (p3 s k) v3 l ->
  succeeds (between p1 p2 p3 s i) v2 k.
Proof.
  intros [H1 Hv1] [H2 Hv2] [H3 Hv3]. split; [| exact Hv2].
  unfold invoke, Parser_call, between, func.
  apply is_None_false in Hv1, Hv2, Hv3.
  step_with H1. rewrite Hv1. step_with H2. rewrite Hv2. step_with H3.
  rewrite Hv3. apply returns_ret.
Qed.

(** C5: [between(p1, p2, p3)] at [(s, i)] runs the three parsers in
    order, each from the end offset of the previous one; if any of them
    fails it fails at the original offset [i]; if all succeed it returns
    the value of [p2] with the offset reached after [p2], not the one
    after [p3]. *)
Theorem between_contract (p1 p2 p3 : pfun) (s : string) (i : Z) :
  (forall j, fails (p1 s i) j -> fails (between p1 p2 p3 s i) i) /\
  (forall v1 j k, succeeds (p1 s i) v1 j -> fails (p2 s j) k ->
     fails (between p1 p2 p3 s i) i) /\
  (forall v1 j v2 k l, succeeds (p1 s i) v1 j -> succeeds (p2 s j) v2 k ->
     fails (p3 s k) l -> fails (between p1 p2 p3 s i) i) /\
  (forall v1 j v2 k v3 l, succeeds (p1 s i) v1 j -> succeeds (p2 s j) v2 k ->
     succeeds (p3 s k) v3 l -> succeeds (between p1 p2 p3 s i) v2 k).
Proof.
  split; [| split; [| split]].
  - intros j. apply between_fails_first.
  - intros v1 j k. apply between_fails_second.
  - intros v1 j v2 k l. apply between_fails_third.
  - intros v1 j v2 k v3 l. apply between_succeeds.
Qed.

Lemma between_contract_witness :
  succeeds (parse_letter_a "atruefalse" 0) (PStr "a") 1 /\
  succeeds (parse_true "atruefalse" 1) (PStr "true") 5 /\
  succeeds (parse_false "atruefalse" 5) (PStr "false") 10 /\
  succeeds (between parse_letter_a parse_true parse_false "atruefalse" 0)
           (PStr "true") 5.
Proof.
  assert (H1 : succeeds (parse_letter_a "atruefalse" 0) (PStr "a") 1)
    by (split; [by_evaluation | discriminate]).
  assert (H2 : succeeds (parse_true "atruefalse" 1) (PStr "true") 5)
    by (split; [by_evaluation | discriminate]).
  assert (H3 : succeeds (parse_false "atruefalse" 5) (PStr "false") 10)
    by (split; [by_evaluation | discriminate]).
  split; [exact H1 | split; [exact H2 | split; [exact H3 |]]].
  exact (proj2 (proj2 (proj2
    (between_contract parse_letter_a parse_true parse_false "atruefalse" 0)))
    _ _ _ _ _ _ H1 H2 H3).
Defined.

(** * many *)

Lemma many_loop_run (p : pfun) (s : string) (i : Z) (xs : list pyval) (j : Z) :
  many_run p s i xs j ->
  exists n0 : nat, forall (n k : nat) (acc : list pyval),
    (n0 <= n)%nat -> (List.length xs < k)%nat ->
    many_loop p s k acc i n = Some (acc ++ xs, j)%list.
Proof.
  induction 1 as [i i' [n0 Hf] | i x i2 xs j [[n1 Hx] Hnn] _ [n2 IH]].
  - exists n0. intros n k acc Hn Hk.
    destruct k as [| k]; [simpl in Hk; lia |].
    simpl. unfold Run.bind. rewrite Hf by exact Hn. simpl.
    now rewrite app_nil_r.
  - exists (Nat.max n1 n2). intros n k acc Hn Hk.
    destruct k as [| k]; [simpl in Hk; lia |].
    simpl. unfold Run.bind. rewrite Hx by lia.
    apply is_None_false in Hnn. rewrite Hnn.
    rewrite IH by (simpl in Hk; lia).
    now rewrite <- app_assoc.
Qed.

Lemma many_returns_run (p : pfun) (s : string) (i : Z) (xs : list pyval) (j : Z) :
  many_run p s i xs j -> returns (many p s i) (PList xs, j).
Proof.
  intro H. destruct (many_loop_run p s i xs j H) as [n0 Hn0].
  exists (Nat.max n0 (S (List.length xs))). intros n Hn.
  unfold invoke, Parser_call, many, func.
  now rewrite (Hn0 n n [] ltac:(lia) ltac:(lia)).
Qed.

Lemma many_value_is_list (p : pfun) (s : string) (i : Z) (n : nat)
    (v : pyval) (j : Z) :
  many p s i n = Some (v, j) -> exists xs, v = PList xs.
Proof.
  unfold invoke, Parser_call, many, func.
  destruct (many_loop p s n [] i n) as [[r i'] |]; [| discriminate].
  intro E. injection E as <- _. now exists r.
Qed.

Lemma many_loop_no_failure (p : pfun) (s : string) :
  (forall idx n, exists x j, p s idx n = Some (x, j) /\ x <> PNone) ->
  forall k acc idx, hangs (many_loop p s k acc idx).
Proof.
  intros Hp k. induction k as [| k IH]; intros acc idx n; [reflexivity |].
  simpl. unfold Run.bind.
  destruct (Hp idx n) as (x & j & -> & Hx).
  apply is_None_false in Hx. rewrite Hx. apply IH.
Qed.

(** A parser that never fails keeps the loop of [many] running. *)
Lemma many_hangs (p : pfun) (s : string) (i : Z) :
  (forall idx n, exists x j, p s idx n = Some (x, j) /\ x <> PNone) ->
  hangs (many p s i).
Proof.
  intros Hp n. unfold invoke, Parser_call, many, func.
  now rewrite (many_loop_no_failure p s Hp n [] i n).
Qed.

Lemma many_pure_hangs (x : pyval) (s : string) (i : Z) :
  x <> PNone -> hangs (many (pure x) s i).
Proof.
  intro Hx. apply many_hangs. intros idx n. now exists x, idx.
Qed.

(** C6: when the attempts of [p] from [(s, i)] all return and one of
    them fails, [many(p)(s, i)] succeeds with the list of the values of
    the successful attempts, in order (the empty list when the first
    attempt fails), and with the offset at which the failing attempt
    started; and [many(p)] never returns the failure sentinel. *)
Theorem many_contract (p : pfun) (s : string) (i : Z) :
  (forall xs j, many_run p s i xs j -> succeeds (many p s i) (PList xs) j) /\
  (forall n v j, many p s i n = Some (v, j) -> v <> PNone).
Proof.
  split.
  - intros xs j H. split; [now apply many_returns_run | discriminate].
  - intros n v j H. destruct (many_value_is_list p s i n v j H) as [xs ->].
    discriminate.
Qed.

Lemma many_contract_witness :
  many_run parse_letter_a "aaab" 0 [PStr "a"; PStr "a"; PStr "a"] 3 /\
  succeeds (many parse_letter_a "aaab" 0) (PList [PStr "a"; PStr "a"; PStr "a"]) 3 /\
  many_run parse_letter_a "bbb" 0 [] 0 /\
  succeeds (many parse_letter_a "bbb" 0) (PList []) 0.
Proof.
  assert (H1 : many_run parse_letter_a "aaab" 0 [PStr "a"; PStr "a"; PStr "a"] 3).
  { apply many_run_step with (i2 := 1); [split; [by_evaluation | discriminate] |].
    apply many_run_step with (i2 := 2); [split; [by_evaluation | discriminate] |].
    apply many_run_step with (i2 := 3); [split; [by_evaluation | discriminate] |].
    apply many_run_stop with (i' := 3). by_evaluation. }
  assert (H2 : many_run parse_letter_a "bbb" 0 [] 0).
  { apply many_run_stop with (i' := 0). by_evaluation. }
  split; [exact H1 | split; [| split; [exact H2 |]]].
  - exact (proj1 (many_contract parse_letter_a "aaab" 0) _ _ H1).
  - exact (proj1 (many_contract parse_letter_a "bbb" 0) _ _ H2).
Defined.

(** * seq *)

Lemma seq_fails_first (p1 p2 : pfun) (s : string) (i j : Z) (r : pyval * Z) :
  fails (p1 s i) j -> returns (p2 s j) r -> fails (seq p1 p2 s i) i.
Proof.
  intros H1 H2. unfold fails, invoke, Parser_call, seq, func.
  step_with H1. destruct r as [y idx3]. step_with H2. apply returns_ret.
Qed.

Lemma seq_fails_second (p1 p2 : pfun) (s : string) (i : Z)
    (v1 : pyval) (j k : Z) :
  succeeds (p1 s i) v1 j -> fails (p2 s j) k -> fails (seq p1 p2 s i) i.
Proof.
  intros [H1 _] H2. unfold fails, invoke, Parser_call, seq, func.
  step_with H1. step_with H2. rewrite orb_true_r. apply returns_ret.
Qed.

Lemma seq_succeeds (p1 p2 : pfun) (s : string) (i : Z)
    (v1 : pyval) (j : Z) (v2 : pyval) (k : Z) :
  succeeds (p1 s i) v1 j -> succeeds (p2 s j) v2 k ->
  succeeds (seq p1 p2 s i) (PTuple [v1; v2]) k.
Proof.
  intros [H1 Hv1] [H2 Hv2]. split; [| discriminate].
  unfold invoke, Parser_call, seq, func.
  apply is_None_false in Hv1, Hv2.
  step_with H1. step_with H2. rewrite Hv1, Hv2. apply returns_ret.
Qed.

(** [seq] calls [parser2] before it looks at the outcome of [parser1]:
    when that call does not return, neither does [seq]. *)
Lemma seq_hangs_with_second (p1 p2 : pfun) (s : string) (i : Z)
    (v : pyval) (j : Z) :
  returns (p1 s i) (v, j) -> hangs (p2 s j) ->
  ~ exists r, returns (seq p1 p2 s i) r.
Proof.
  intros H1 H2 [r Hr].
  unfold invoke, Parser_call, seq, func in Hr.
  pose proof (returns_bind_inv _ _ _ _ H1 Hr) as [n Hn]. cbn in Hn.
  specialize (Hn n (Nat.le_refl n)). unfold Run.bind in Hn.
  rewrite H2 in Hn. discriminate.
Qed.

(** The sequencing example of the demonstration. *)
Example seq_atrue :
  succeeds (seq parse_letter_a parse_true "atrue" 0)
           (PTuple [PStr "a"; PStr "true"]) 5.
Proof.
  apply seq_succeeds with (j := 1); split; (by_evaluation || discriminate).
Qed.

(** C4 at [seq(parse_letter_a, many(pure("x")))("b", 0)]: the first
    parser fails at offset 0, the second parser is called all the same,
    its loop never ends, and [seq] returns nothing; [between] given the
    same two parsers fails at offset 0. *)
Theorem seq_runs_second_after_failure :
  fails (parse_letter_a "b" 0) 0 /\
  (~ exists r, returns (seq parse_letter_a (many (pure (PStr "x"))) "b" 0) r) /\
  fails (between parse_letter_a (many (pure (PStr "x"))) parse_true "b" 0) 0.
Proof.
  assert (H : fails (parse_letter_a "b" 0) 0) by by_evaluation.
  split; [exact H | split].
  - apply seq_hangs_with_second with (v := PNone) (j := 0); [exact H |].
    apply many_pure_hangs. discriminate.
  - exact (between_fails_first _ _ _ _ _ _ H).
Qed.

(** * compose *)

Lemma compose_fails_first (p1 p2 : pfun) (s : string) (i j : Z) :
  fails (p1 s i) j -> fails (compose p1 p2 s i) i.
Proof.
  intro H. unfold fails, invoke, Parser_call, compose, func.
  step_with H. apply returns_ret.
Qed.

Lemma compose_second (p1 p2 : pfun) (s : string) (i : Z)
    (v1 : pyval) (j : Z) (r : pyval * Z) :
  succeeds (p1 s i) v1 j ->
  returns (compose p1 p2 s i) r <-> returns (p2 s j) r.
Proof.
  intros [H Hv]. apply is_None_false in Hv.
  unfold invoke, Parser_call, compose, func. split; intro Hr.
  - pose proof (returns_bind_inv _ _ _ _ H Hr) as Hr'. cbn in Hr'.
    now rewrite Hv in Hr'.
  - step_with H. now rewrite Hv.
Qed.

(** ** The backtracking invariant *)

Lemma seq_backtracks (p1 p2 : pfun) : failure_contract (seq p1 p2).
Proof.
  intros s i n j. unfold invoke, Parser_call, seq, func, Run.bind.
  destruct (p1 s i n) as [[x idx2] |]; [| discriminate].
  destruct (p2 s idx2 n) as [[y idx3] |]; [| discriminate].
  destruct (is_None x || is_None y); unfold ret; intro E; now inversion E.
Qed.

Lemma between_backtracks (p1 p2 p3 : pfun) : failure_contract (between p1 p2 p3).
Proof.
  intros s i n j. unfold invoke, Parser_call, between, func, Run.bind.
  destruct (p1 s i n) as [[x idx2] |]; [| discriminate].
  destruct (is_None x); [unfold ret; intro E; now inversion E |].
  destruct (p2 s idx2 n) as [[y idx3] |]; [| discriminate].
  destruct (is_None y) eqn:Hy; [unfold ret; intro E; now inversion E |].
  destruct (p3 s idx3 n) as [[z idx4] |]; [| discriminate].
  destruct (is_None z); unfold ret; intro E; inversion E; subst; [reflexivity |].
  discriminate Hy.
Qed.

Lemma parse_a_failure_contract : failure_contract parse_a.
Proof.
  intros s i n j. unfold parse_a.
  destruct (i <? len s); [| unfold ret; intro E; now inversion E].
  destruct (py_index s i) as [c |]; [| discriminate].
  destruct (Ascii.eqb c "a"); unfold ret; intro E; now inversion E.
Qed.

Lemma parse_true_failure_contract : failure_contract parse_true_fn.
Proof.
  intros s i n j. unfold parse_true_fn.
  destruct (py_startswith s "true" i); unfold ret; intro E; now inversion E.
Qed.

(** C2 at [compose(parse_letter_a, parse_true)("ab", 0)]: both parsers
    obey the failure contract, the first succeeds up to offset 1, the
    second fails there, and [compose] reports the failure at offset 1
    instead of 0; [seq] on the same input reports it at offset 0. *)
Theorem compose_leaks_offset :
  failure_contract parse_letter_a /\ failure_contract parse_true /\
  fails (compose parse_letter_a parse_true "ab" 0) 1 /\
  fails (seq parse_letter_a parse_true "ab" 0) 0.
Proof.
  split; [exact parse_a_failure_contract |].
  split; [exact parse_true_failure_contract |].
  split; by_evaluation.
Qed.

(** * Termination of many *)

(** C8, as stated, fails: [step_always] makes forward progress on every
    success and each of its calls returns, yet the loop of
    [many(step_always)] never ends. *)
Lemma many_hangs_despite_progress :
  forward_progress step_always /\
  (forall s idx, exists r, returns (step_always s idx) r) /\
  ~ exists r, returns (many step_always "abc" 0) r.
Proof.
  split; [| split].
  - intros s i v j [H _].
    assert (H' : returns (step_always s i) (PStr "x", i + 1)) by apply returns_ret.
    pose proof (returns_det _ _ _ H H') as E. injection E as _ ->. lia.
  - intros s idx. eexists. apply returns_ret.
  - apply hangs_not_returns, many_hangs.
    intros idx n. exists (PStr "x"), (idx + 1). split; [reflexivity | discriminate].
Qed.

Lemma many_run_exists (p : pfun) (s : string) (i : Z) :
  (forall idx, i <= idx -> exists r, returns (p s idx) r) ->
  (forall idx v j, i <= idx -> succeeds (p s idx) v j -> idx < j <= len s) ->
  forall (m : nat) (idx : Z), i <= idx -> (Z.to_nat (len s - idx) <= m)%nat ->
  exists xs j, many_run p s idx xs j /\
               Z.of_nat (List.length xs) <= Z.max 0 (len s - idx).
Proof.
  intros Hret Hprog m. induction m as [| m IH]; intros idx Hi Hm.
  - destruct (Hret idx Hi) as [[v j] Hr].
    destruct (is_None v) eqn:Hv.
    + apply is_None_true in Hv. subst v.
      exists [], idx. split; [now apply many_run_stop with (i' := j) |].
      simpl. lia.
    + apply is_None_false in Hv.
      pose proof (Hprog idx v j Hi (conj Hr Hv)). lia.
  - destruct (Hret idx Hi) as [[v j] Hr].
    destruct (is_None v) eqn:Hv.
    + apply is_None_true in Hv. subst v.
      exists [], idx. split; [now apply many_run_stop with (i' := j) |].
      simpl. lia.
    + apply is_None_false in Hv.
      pose proof (Hprog idx v j Hi (conj Hr Hv)) as Hj.
      destruct (IH j ltac:(lia) ltac:(lia)) as (xs & k & Hrun & Hlen).
      exists (v :: xs), k. split.
      * apply many_run_step with (i2 := j); [now split | exact Hrun].
      * simpl List.length. lia.
Qed.

(** C8 (amended): if every call of [p] on [s] from offset [i] onwards
    returns, and every success of [p] there ends strictly after its start
    and not beyond the end of the text, then [many(p)(s, i)] returns,
    after at most [len(s) - i] successful iterations; [pure(x)], which
    makes no progress, keeps [many] looping for ever. *)
Theorem many_termination (s : string) (i : Z) :
  (forall p : pfun,
     (forall idx, i <= idx -> exists r, returns (p s idx) r) ->
     (forall idx v j, i <= idx -> succeeds (p s idx) v j -> idx < j <= len s) ->
     exists xs j, succeeds (many p s i) (PList xs) j /\
                  Z.of_nat (List.length xs) <= Z.max 0 (len s - i)) /\
  (forall x, x <> PNone ->
     ~ forward_progress (pure x) /\ hangs (many (pure x) s i)).
Proof.
  split.
  - intros p Hret Hprog.
    destruct (many_run_exists p s i Hret Hprog (Z.to_nat (len s - i)) i
                ltac:(lia) ltac:(lia)) as (xs & j & Hrun & Hlen).
    exists xs, j. split; [| exact Hlen].
    split; [now apply many_returns_run | discriminate].
  - intros x Hx. split; [| now apply many_pure_hangs].
    intro Hfp. specialize (Hfp "" 0 x 0 (conj (pure_returns x "" 0) Hx)). lia.
Qed.

Lemma get_in_range (s : string) : forall n : nat,
  (n < String.length s)%nat -> exists c, String.get n s = Some c.
Proof.
  induction s as [| a s IH]; intros n Hn; simpl in Hn; [lia |].
  destruct n as [| n]; simpl; [now exists a | apply IH; lia].
Qed.

Lemma parse_a_returns (s : string) (idx : Z) :
  0 <= idx -> exists r, returns (parse_a s idx) r.
Proof.
  intro H0. unfold parse_a, py_index.
  destruct (idx <? len s) eqn:Hlt; [| eexists; apply returns_ret].
  apply Z.ltb_lt in Hlt.
  replace (0 <=? idx) with true by (symmetry; apply Z.leb_le; exact H0).
  simpl. unfold len in Hlt.
  destruct (get_in_range s (Z.to_nat idx) ltac:(lia)) as [c ->].
  destruct (Ascii.eqb c "a"); eexists; apply returns_ret.
Qed.

Lemma parse_a_step (s : string) (idx : Z) (n : nat) (v : pyval) (j : Z) :
  parse_a s idx n = Some (v, j) -> v <> PNone -> j = idx + 1 /\ idx < len s.
Proof.
  unfold parse_a. destruct (idx <? len s) eqn:Hlt.
  - apply Z.ltb_lt in Hlt. destruct (py_index s idx) as [c |]; [| discriminate].
    destruct (Ascii.eqb c "a"); unfold ret; intros E Hv; inversion E; subst;
      [now split | now elim Hv].
  - unfold ret. intros E Hv. inversion E; subst. now elim Hv.
Qed.

Lemma many_termination_witness :
  (exists xs j, succeeds (many parse_letter_a "aaab" 0) (PList xs) j /\
                Z.of_nat (List.length xs) <= Z.max 0 (len "aaab" - 0)) /\
  hangs (many (pure (PStr "x")) "aaab" 0).
Proof.
  split.
  - apply (proj1 (many_termination "aaab" 0) parse_letter_a).
    + intros idx Hi. exact (parse_a_returns "aaab" idx Hi).
    + intros idx v j Hi [[n Hn] Hv].
      destruct (parse_a_step "aaab" idx n v j (Hn n (Nat.le_refl n)) Hv)
        as [-> Hlt].
      lia.
  - apply (proj2 (many_termination "aaab" 0) (PStr "x")). discriminate.
Defined.

(** * Offsets never decrease on success *)

Lemma seq_success_contract (p1 p2 : pfun) :
  success_contract p1 -> success_contract p2 -> success_contract (seq p1 p2).
Proof.
  intros C1 C2 s i n v j H Hv. unfold seq in H. open_call H.
  destruct (p1 s i n) as [[x idx2] |] eqn:E1; [| discriminate].
  destruct (p2 s idx2 n) as [[y idx3] |] eqn:E2; [| discriminate].
  destruct (is_None x) eqn:Hx; simpl in H; [inversion H; subst; now elim Hv |].
  destruct (is_None y) eqn:Hy; simpl in H; inversion H; subst; [now elim Hv |].
  apply is_None_false in Hx, Hy.
  pose proof (C1 _ _ _ _ _ E1 Hx). pose proof (C2 _ _ _ _ _ E2 Hy). lia.
Qed.

Lemma choice_success_contract (p1 p2 : pfun) :
  success_contract p1 -> success_contract p2 -> success_contract (choice p1 p2).
Proof.
  intros C1 C2 s i n v j H Hv. unfold choice in H. open_call H.
  destruct (p1 s i n) as [[x idx2] |] eqn:E1; [| discriminate].
  simpl in H. destruct (is_None x) eqn:Hx; simpl in H.
  - exact (C2 _ _ _ _ _ H Hv).
  - inversion H; subst. exact (C1 _ _ _ _ _ E1 Hv).
Qed.

Lemma compose_success_contract (p1 p2 : pfun) :
  success_contract p1 -> success_contract p2 -> success_contract (compose p1 p2).
Proof.
  intros C1 C2 s i n v j H Hv. unfold compose in H. open_call H.
  destruct (p1 s i n) as [[x idx2] |] eqn:E1; [| discriminate].
  destruct (is_None x) eqn:Hx; [inversion H; subst; now elim Hv |].
  apply is_None_false in Hx.
  pose proof (C1 _ _ _ _ _ E1 Hx). pose proof (C2 _ _ _ _ _ H Hv). lia.
Qed.

Lemma between_success_contract (p1 p2 p3 : pfun) :
  success_contract p1 -> success_contract p2 ->
  success_contract (between p1 p2 p3).
Proof.
  intros C1 C2 s i n v j H Hv. unfold between in H. open_call H.
  destruct (p1 s i n) as [[x idx2] |] eqn:E1; [| discriminate].
  destruct (is_None x) eqn:Hx; [inversion H; subst; now elim Hv |].
  destruct (p2 s idx2 n) as [[y idx3] |] eqn:E2; [| discriminate].
  destruct (is_None y) eqn:Hy; [inversion H; subst; now elim Hv |].
  destruct (p3 s idx3 n) as [[z idx4] |] eqn:E3; [| discriminate].
  destruct (is_None z) eqn:Hz; inversion H; subst; [now elim Hv |].
  apply is_None_false in Hx.
  pose proof (C1 _ _ _ _ _ E1 Hx). pose proof (C2 _ _ _ _ _ E2 Hv). lia.
Qed.

Lemma fmap_success_contract (g : pyval -> pyval) (p : pfun) :
  success_contract p -> success_contract (fmap g p).
Proof.
  intros C s i n v j H Hv. unfold fmap in H. open_call H.
  destruct (p s i n) as [[x idx2] |] eqn:E; [| discriminate].
  simpl in H. destruct (is_None x) eqn:Hx; inversion H; subst; [now elim Hv |].
  apply is_None_false in Hx. exact (C _ _ _ _ _ E Hx).
Qed.

Lemma pure_success_contract (x : pyval) : success_contract (pure x).
Proof.
  intros s i n v j H _. unfold pure in H. open_call H. inversion H. lia.
Qed.

Lemma bind_success_contract (p : pfun) (f : pyval -> pfun) :
  success_contract p -> (forall x, success_contract (f x)) ->
  success_contract (bind p f).
Proof.
  intros C Cf s i n v j H Hv. unfold bind in H. open_call H.
  destruct (p s i n) as [[x idx2] |] eqn:E; [| discriminate].
  destruct (is_None x) eqn:Hx; [inversion H; subst; now elim Hv |].
  apply is_None_false in Hx.
  pose proof (C _ _ _ _ _ E Hx). pose proof (Cf x _ _ _ _ _ H Hv). lia.
Qed.

Lemma many_loop_offset (p : pfun) (s : string) (n : nat) :
  success_contract p ->
  forall (k : nat) (acc : list pyval) (idx : Z) (r : list pyval) (j : Z),
    many_loop p s k acc idx n = Some (r, j) -> idx <= j.
Proof.
  intros C k. induction k as [| k IH]; intros acc idx r j H; [discriminate |].
  simpl in H. unfold Run.bind in H.
  destruct (p s idx n) as [[x idx2] |] eqn:E; [| discriminate].
  destruct (is_None x) eqn:Hx.
  - unfold ret in H. inversion H. lia.
  - apply is_None_false in Hx.
    pose proof (C _ _ _ _ _ E Hx). pose proof (IH _ _ _ _ H). lia.
Qed.

Lemma many_success_contract (p : pfun) :
  success_contract p -> success_contract (many p).
Proof.
  intros C s i n v j H _. unfold many in H. open_call H.
  destruct (many_loop p s n [] i n) as [[r i'] |] eqn:E; [| discriminate].
  inversion H; subst. exact (many_loop_offset p s n C _ _ _ _ _ E).
Qed.

Lemma regex_offset_in_text (sre : engine) (pat s : string) (i : Z) (n : nat)
    (v : pyval) (j : Z) :
  engine_span sre -> i <= len s ->
  regex sre pat s i n = Some (v, j) -> v <> PNone -> i <= j.
Proof.
  intros Hs Hi H Hv. unfold regex, Pattern_match in H.
  assert (Hlen : 0 <= len s) by (unfold len; lia).
  destruct (i <? 0) eqn:Hneg.
  - apply Z.ltb_lt in Hneg.
    destruct (sre pat s 0) as [e |] eqn:E; unfold ret in H; inversion H; subst;
      [| now elim Hv].
    pose proof (Hs pat s 0 j ltac:(lia) E). lia.
  - apply Z.ltb_ge in Hneg.
    replace (len s <? i) with false in H by (symmetry; apply Z.ltb_ge; exact Hi).
    destruct (sre pat s i) as [e |] eqn:E; unfold ret in H; inversion H; subst;
      [| now elim Hv].
    pose proof (Hs pat s i j ltac:(lia) E). lia.
Qed.

Lemma literal_sre_span : engine_span literal_sre.
Proof.
  intros pat s b e Hb. unfold literal_sre.
  destruct (len s <? b + len pat) eqn:Hfit; [discriminate |].
  apply Z.ltb_ge in Hfit.
  destruct (String.prefix pat (drop b s)); [| discriminate].
  intro E. inversion E. unfold len in *. lia.
Qed.

(** C9, as stated, fails for [regex]: started beyond the end of the
    text, the scan is moved back to the end of the text, and the empty
    pattern matches there, so the offset returned is smaller than the
    start offset. *)
Lemma regex_moves_back :
  engine_span literal_sre /\
  regex literal_sre "" "abc" 10 0%nat = Some (PStr "", 3) /\
  ~ success_contract (regex literal_sre "").
Proof.
  split; [exact literal_sre_span | split; [reflexivity |]].
  intro C.
  specialize (C "abc" 10 0%nat (PStr "") 3 eq_refl ltac:(discriminate)). lia.
Qed.

(** C9 (amended): if the component parsers never move backwards on
    success, neither do the parsers built from them by [seq], [choice],
    [compose], [between], [fmap], [pure], [bind] and [many]; a parser
    built by [regex] never moves backwards on success when it is started
    at an offset that is at most the length of the text. *)
Theorem success_contract_preserved (p1 p2 p3 : pfun) (f : pyval -> pfun)
    (g : pyval -> pyval) (x : pyval) (sre : engine) (pat : string) :
  success_contract p1 -> success_contract p2 -> success_contract p3 ->
  (forall y, success_contract (f y)) -> engine_span sre ->
  success_contract (seq p1 p2) /\
  success_contract (choice p1 p2) /\
  success_contract (compose p1 p2) /\
  success_contract (between p1 p2 p3) /\
  success_contract (fmap g p1) /\
  success_contract (pure x) /\
  success_contract (bind p1 f) /\
  success_contract (many p1) /\
  (forall s i n v j, i <= len s ->
     regex sre pat s i n = Some (v, j) -> v <> PNone -> i <= j).
Proof.
  intros C1 C2 C3 Cf Hs.
  split; [now apply seq_success_contract |].
  split; [now apply choice_success_contract |].
  split; [now apply compose_success_contract |].
  split; [now apply between_success_contract |].
  split; [now apply fmap_success_contract |].
  split; [apply pure_success_contract |].
  split; [now apply bind_success_contract |].
  split; [now apply many_success_contract |].
  intros s i n v j Hi. now apply regex_offset_in_text.
Qed.

Lemma parse_a_success_contract : success_contract parse_a.
Proof.
  intros s i n v j H Hv. destruct (parse_a_step s i n v j H Hv) as [-> _]. lia.
Qed.

Lemma parse_true_success_contract : success_contract parse_true_fn.
Proof.
  intros s i n v j. unfold parse_true_fn.
  destruct (py_startswith s "true" i); unfold ret; intros E Hv; inversion E; subst;
    [lia | now elim Hv].
Qed.

Lemma parse_false_success_contract : success_contract parse_false.
Proof.
  intros s i n v j. unfold parse_false.
  destruct (py_startswith s "false" i); unfold ret; intros E Hv; inversion E; subst;
    [lia | now elim Hv].
Qed.

Lemma success_contract_preserved_witness :
  success_contract (seq parse_letter_a parse_true) /\
  success_contract (many parse_letter_a) /\
  (forall s i n v j, i <= len s ->
     regex literal_sre "true" s i n = Some (v, j) -> v <> PNone -> i <= j).
Proof.
  pose proof (success_contract_preserved parse_letter_a parse_true parse_false
                (fun y => pure y) (fun y => y) (PStr "a") literal_sre "true"
                parse_a_success_contract parse_true_success_contract
                parse_false_success_contract pure_success_contract
                literal_sre_span) as H.
  split; [exact (proj1 H) |].
  split; [exact (proj1 (proj2 (proj2 (proj2 (proj2 (proj2 (proj2 (proj2 H)))))))) |].
  exact (proj2 (proj2 (proj2 (proj2 (proj2 (proj2 (proj2 (proj2 H)))))))).
Defined.

(** * Further properties of the combinators *)

(** ** seq *)

(** X1: contract of [seq] when the call of the second parser returns: a
    failure of either parser makes [seq] fail at the original offset, two
    successes give the tuple of both values at the end offset of the
    second parser. *)
Theorem seq_contract (p1 p2 : pfun) (s : string) (i : Z) :
  (forall j r, fails (p1 s i) j -> returns (p2 s j) r ->
     fails (seq p1 p2 s i) i) /\
  (forall v1 j k, succeeds (p1 s i) v1 j -> fails (p2 s j) k ->
     fails (seq p1 p2 s i) i) /\
  (forall v1 j v2 k, succeeds (p1 s i) v1 j -> succeeds (p2 s j) v2 k ->
     succeeds (seq p1 p2 s i) (PTuple [v1; v2]) k).
Proof.
  split; [| split].
  - intros j r. apply seq_fails_first.
  - intros v1 j k. apply seq_fails_second.
  - intros v1 j v2 k. apply seq_succeeds.
Qed.

Lemma seq_contract_witness :
  succeeds (parse_letter_a "atrue" 0) (PStr "a") 1 /\
  succeeds (parse_true "atrue" 1) (PStr "true") 5 /\
  succeeds (seq parse_letter_a parse_true "atrue" 0)
           (PTuple [PStr "a"; PStr "true"]) 5 /\
  fails (parse_true "ab" 1) 1 /\
  fails (seq parse_letter_a parse_true "ab" 0) 0.
Proof.
  assert (H1 : succeeds (parse_letter_a "atrue" 0) (PStr "a") 1)
    by (split; [by_evaluation | discriminate]).
  assert (H2 : succeeds (parse_true "atrue" 1) (PStr "true") 5)
    by (split; [by_evaluation | discriminate]).
  assert (H3 : succeeds (parse_letter_a "ab" 0) (PStr "a") 1)
    by (split; [by_evaluation | discriminate]).
  assert (H4 : fails (parse_true "ab" 1) 1) by by_evaluation.
  split; [exact H1 | split; [exact H2 | split; [| split; [exact H4 |]]]].
  - exact (proj2 (proj2 (seq_contract parse_letter_a parse_true "atrue" 0))
             _ _ _ _ H1 H2).
  - exact (proj1 (proj2 (seq_contract parse_letter_a parse_true "ab" 0))
             _ _ _ H3 H4).
Defined.

(** X2: a success of [seq] always comes from a success of the first
    parser followed by a success of the second one at the offset the
    first one reached; its value is the tuple of their two values. *)
Theorem seq_success_inv (p1 p2 : pfun) (s : string) (i : Z) (n : nat)
    (v : pyval) (k : Z) :
  seq p1 p2 s i n = Some (v, k) -> v <> PNone ->
  exists x j y,
    p1 s i n = Some (x, j) /\ x <> PNone /\
    p2 s j n = Some (y, k) /\ y <> PNone /\ v = PTuple [x; y].
Proof.
  intros H Hv. unfold seq in H. open_call H.
  destruct (p1 s i n) as [[x j] |] eqn:E1; [| discriminate].
  destruct (p2 s j n) as [[y k'] |] eqn:E2; [| discriminate].
  destruct (is_None x) eqn:Hx; simpl in H; [inversion H; subst; now elim Hv |].
  destruct (is_None y) eqn:Hy; simpl in H; inversion H; subst; [now elim Hv |].
  apply is_None_false in Hx, Hy. exists x, j, y. repeat split; assumption.
Qed.

Lemma seq_success_inv_witness :
  exists x j y,
    parse_letter_a "atrue" 0 0%nat = Some (x, j) /\ x <> PNone /\
    parse_true "atrue" j 0%nat = Some (y, 5) /\ y <> PNone /\
    PTuple [PStr "a"; PStr "true"] = PTuple [x; y].
Proof.
  apply (seq_success_inv parse_letter_a parse_true "atrue" 0 0%nat
           (PTuple [PStr "a"; PStr "true"]) 5); [reflexivity | discriminate].
Defined.

(** ** between *)

(** X3: a success of [between] always comes from three successes in a
    row; the value and the end offset are those of the middle parser. *)
Theorem between_success_inv (p1 p2 p3 : pfun) (s : string) (i : Z) (n : nat)
    (v : pyval) (k : Z) :
  between p1 p2 p3 s i n = Some (v, k) -> v <> PNone ->
  exists x j z l,
    p1 s i n = Some (x, j) /\ x <> PNone /\
    p2 s j n = Some (v, k) /\
    p3 s k n = Some (z, l) /\ z <> PNone.
Proof.
  intros H Hv. unfold between in H. open_call H.
  destruct (p1 s i n) as [[x j] |] eqn:E1; [| discriminate].
  destruct (is_None x) eqn:Hx; [inversion H; subst; now elim Hv |].
  destruct (p2 s j n) as [[y k'] |] eqn:E2; [| discriminate].
  destruct (is_None y) eqn:Hy; [inversion H; subst; now elim Hv |].
  destruct (p3 s k' n) as [[z l] |] eqn:E3; [| discriminate].
  destruct (is_None z) eqn:Hz; inversion H; subst; [now elim Hv |].
  apply is_None_false in Hx, Hz. exists x, j, z, l. repeat split; assumption.
Qed.

Lemma between_success_inv_witness :
  exists x j z l,
    parse_letter_a "atruefalse" 0 0%nat = Some (x, j) /\ x <> PNone /\
    parse_true "atruefalse" j 0%nat = Some (PStr "true", 5) /\
    parse_false "atruefalse" 5 0%nat = Some (z, l) /\ z <> PNone.
Proof.
  apply (between_success_inv parse_letter_a parse_true parse_false
           "atruefalse" 0 0%nat (PStr "true") 5); [reflexivity | discriminate].
Defined.

(** ** compose *)

(** X4: [compose] fails at the original offset when the first parser
    fails; when the first parser succeeds, [compose] returns exactly what
    the second parser returns from the offset the first one reached, and
    the value of the first parser is dropped. *)
Theorem compose_contract (p1 p2 : pfun) (s : string) (i : Z) :
  (forall j, fails (p1 s i) j -> fails (compose p1 p2 s i) i) /\
  (forall v1 j r, succeeds (p1 s i) v1 j ->
     (returns (compose p1 p2 s i) r <-> returns (p2 s j) r)).
Proof.
  split.
  - intros j. apply compose_fails_first.
  - intros v1 j r. apply compose_second.
Qed.

Lemma compose_contract_witness :
  succeeds (parse_letter_a "atrue" 0) (PStr "a") 1 /\
  returns (compose parse_letter_a parse_true "atrue" 0) (PStr "true", 5) /\
  fails (parse_letter_a "true" 0) 0 /\
  fails (compose parse_letter_a parse_true "true" 0) 0.
Proof.
  assert (H1 : succeeds (parse_letter_a "atrue" 0) (PStr "a") 1)
    by (split; [by_evaluation | discriminate]).
  assert (H2 : fails (parse_letter_a "true" 0) 0) by by_evaluation.
  split; [exact H1 | split; [| split; [exact H2 |]]].
  - apply (proj2 (compose_contract parse_letter_a parse_true "atrue" 0) _ _ _ H1).
    by_evaluation.
  - exact (proj1 (compose_contract parse_letter_a parse_true "true" 0) _ H2).
Defined.

(** ** bind *)

Lemma bind_fails_first (p : pfun) (f : pyval -> pfun) (s : string) (i j : Z) :
  fails (p s i) j -> fails (bind p f s i) i.
Proof.
  intro H. unfold fails, invoke, Parser_call, bind, func.
  step_with H. apply returns_ret.
Qed.

Lemma bind_second (p : pfun) (f : pyval -> pfun) (s : string) (i : Z)
    (v : pyval) (j : Z) (r : pyval * Z) :
  succeeds (p s i) v j ->
  returns (bind p f s i) r <-> returns (f v s j) r.
Proof.
  intros [H Hv]. apply is_None_false in Hv.
  unfold invoke, Parser_call, bind, func. split; intro Hr.
  - pose proof (returns_bind_inv _ _ _ _ H Hr) as Hr'. cbn in Hr'.
    now rewrite Hv in Hr'.
  - step_with H. now rewrite Hv.
Qed.

(** X5: [bind] fails at the original offset when the parser fails; when
    the parser succeeds with [v] at offset [j], [bind] returns exactly
    what the parser [f(v)] returns from [j]. *)
Theorem bind_contract (p : pfun) (f : pyval -> pfun) (s : string) (i : Z) :
  (forall j, fails (p s i) j -> fails (bind p f s i) i) /\
  (forall v j r, succeeds (p s i) v j ->
     (returns (bind p f s i) r <-> returns (f v s j) r)).
Proof.
  split.
  - intros j. apply bind_fails_first.
  - intros v j r. apply bind_second.
Qed.

Lemma bind_contract_witness :
  succeeds (parse_letter_a "a" 0) (PStr "a") 1 /\
  returns (bind parse_letter_a add_b "a" 0) (PStr "ab", 1) /\
  fails (parse_letter_a "b" 0) 0 /\
  fails (bind parse_letter_a add_b "b" 0) 0.
Proof.
  assert (H1 : succeeds (parse_letter_a "a" 0) (PStr "a") 1)
    by (split; [by_evaluation | discriminate]).
  assert (H2 : fails (parse_letter_a "b" 0) 0) by by_evaluation.
  split; [exact H1 | split; [| split; [exact H2 |]]].
  - apply (proj2 (bind_contract parse_letter_a add_b "a" 0) _ _ _ H1).
    by_evaluation.
  - exact (proj1 (bind_contract parse_letter_a add_b "b" 0) _ H2).
Defined.

(** X6: left identity. For a value [x] other than [None],
    [bind(pure(x), f)] does what [f(x)] does, under every budget;
    [bind(pure(None), f)] fails at the original offset without calling
    [f]. *)
Theorem bind_pure_left (f : pyval -> pfun) (s : string) (i : Z) (n : nat) :
  (forall x, x <> PNone -> bind (pure x) f s i n = f x s i n) /\
  bind (pure PNone) f s i n = Some (PNone, i).
Proof.
  split; [| reflexivity].
  intros x Hx. apply is_None_false in Hx.
  unfold invoke, Parser_call, bind, pure, func, Run.bind, ret. now rewrite Hx.
Qed.

Lemma bind_pure_left_witness :
  bind (pure (PStr "a")) add_b "" 0 0%nat = add_b (PStr "a") "" 0 0%nat.
Proof.
  apply (proj1 (bind_pure_left add_b "" 0 0%nat) (PStr "a")). discriminate.
Defined.

(** X7: right identity. For a parser that obeys the failure contract,
    [bind(p, pure)] does what [p] does, under every budget. *)
Theorem bind_pure_right (p : pfun) (s : string) (i : Z) (n : nat) :
  failure_contract p ->
  bind p (fun x => pure x) s i n = p s i n.
Proof.
  intro C. unfold invoke, Parser_call, bind, pure, func, Run.bind, ret.
  destruct (p s i n) as [[x j] |] eqn:E; [| reflexivity].
  destruct (is_None x) eqn:Hx; [| reflexivity].
  apply is_None_true in Hx. subst x. now rewrite (C s i n j E).
Qed.

Lemma bind_pure_right_witness :
  failure_contract parse_letter_a /\
  bind parse_letter_a (fun x => pure x) "abc" 0 0%nat = parse_letter_a "abc" 0 0%nat.
Proof.
  split; [exact parse_a_failure_contract |].
  exact (bind_pure_right parse_letter_a "abc" 0 0%nat parse_a_failure_contract).
Defined.

(** X8: associativity up to the failure offset. Under every budget
    [bind(bind(p, f), g)] and [bind(p, lambda x: bind(f(x), g))] return
    the same value (or both return nothing), and whenever the one
    succeeds the other succeeds at the same offset. *)
Theorem bind_assoc (p : pfun) (f g : pyval -> pfun) (s : string) (i : Z)
    (n : nat) :
  option_map fst (bind (bind p f) g s i n) =
  option_map fst (bind p (fun x => bind (f x) g) s i n) /\
  (forall v k, v <> PNone ->
     (bind (bind p f) g s i n = Some (v, k) <->
      bind p (fun x => bind (f x) g) s i n = Some (v, k))).
Proof.
  unfold invoke, Parser_call, bind, func, Run.bind, ret.
  destruct (p s i n) as [[x j] |]; [| split; [reflexivity | tauto]].
  destruct (is_None x); [split; [reflexivity | tauto] |].
  destruct (f x s j n) as [[y k'] |]; [| split; [reflexivity | tauto]].
  destruct (is_None y); [| split; [reflexivity | tauto]].
  split; [reflexivity |].
  intros v k Hv. split; intro E; inversion E; subst; now elim Hv.
Qed.

Lemma bind_assoc_witness :
  PStr "abb" <> PNone /\
  (bind (bind parse_letter_a add_b) add_b "a" 0 0%nat = Some (PStr "abb", 1) <->
   bind parse_letter_a (fun x => bind (add_b x) add_b) "a" 0 0%nat
     = Some (PStr "abb", 1)).
Proof.
  split; [discriminate |].
  apply (proj2 (bind_assoc parse_letter_a add_b add_b "a" 0 0%nat)). discriminate.
Defined.

(** [compose(p1, p2)] is [bind(p1, lambda _: p2)]: the two return the
    same result under every budget. *)
Theorem compose_is_bind (p1 p2 : pfun) (s : string) (i : Z) (n : nat) :
  compose p1 p2 s i n = bind p1 (fun _ => p2) s i n.
Proof. reflexivity. Qed.

(** ** choice *)

(** X9: [choice] is associative and idempotent: nesting it to the left
    or to the right gives the same result under every budget, and
    [choice(p, p)] does what [p] does. *)
Theorem choice_assoc_idem (p1 p2 p3 : pfun) (s : string) (i : Z) (n : nat) :
  choice (choice p1 p2) p3 s i n = choice p1 (choice p2 p3) s i n /\
  choice p1 p1 s i n = p1 s i n.
Proof.
  unfold invoke, Parser_call, choice, func, Run.bind, ret. split.
  - destruct (p1 s i n) as [[x j] |]; [| reflexivity]. simpl.
    destruct (is_None x) eqn:Hx; simpl; [| now rewrite Hx].
    destruct (p2 s i n) as [[y k] |]; [| reflexivity]. simpl.
    destruct (is_None y); reflexivity.
  - destruct (p1 s i n) as [[x j] |] eqn:E; [| reflexivity]. simpl.
    destruct (is_None x); simpl; [exact E | reflexivity].
Qed.

(** ** Failures *)

Lemma choice_backtracks (p1 p2 : pfun) :
  failure_contract p2 -> failure_contract (choice p1 p2).
Proof.
  intros C s i n j H. unfold choice in H. open_call H.
  destruct (p1 s i n) as [[x j1] |]; [| discriminate]. simpl in H.
  destruct (is_None x) eqn:Hx; simpl in H.
  - exact (C s i n j H).
  - inversion H; subst. discriminate Hx.
Qed.

Lemma many_never_fails (p : pfun) : failure_contract (many p).
Proof.
  intros s i n j H. destruct (many_value_is_list p s i n PNone j H) as [xs E].
  discriminate E.
Qed.

(** X10: whatever their sub-parsers do, [seq] and [between] report every
    failure at the offset they were started from; so do [pure] and
    [many]; [choice] does so as soon as its second parser does. *)
Theorem failure_contract_kept (p1 p2 p3 : pfun) (x : pyval) :
  failure_contract (seq p1 p2) /\
  failure_contract (between p1 p2 p3) /\
  failure_contract (pure x) /\
  failure_contract (many p1) /\
  (failure_contract p2 -> failure_contract (choice p1 p2)).
Proof.
  split; [apply seq_backtracks |].
  split; [apply between_backtracks |].
  split; [| split; [apply many_never_fails | apply choice_backtracks]].
  intros s i n j H. unfold pure in H. open_call H. now inversion H.
Qed.

Lemma failure_contract_kept_witness :
  failure_contract parse_true /\
  failure_contract (choice parse_letter_a parse_true).
Proof.
  split; [exact parse_true_failure_contract |].
  exact (proj2 (proj2 (proj2 (proj2
    (failure_contract_kept parse_letter_a parse_true parse_false PNone))))
    parse_true_failure_contract).
Defined.

(** X11: the two ways [fmap] fails. When the parser fails, at whatever
    offset, [fmap] fails at the original offset; when the parser
    succeeds and [f] returns [None] on its result pair, [fmap] returns
    [None] with the end offset of the parser, not the original offset. *)
Theorem fmap_failure_offsets (f : pyval -> pyval) (p : pfun) (s : string)
    (i : Z) :
  (forall j, fails (p s i) j -> fails (fmap f p s i) i) /\
  (forall v j, succeeds (p s i) v j -> f (PTuple [v; PInt j]) = PNone ->
     fails (fmap f p s i) j).
Proof.
  split.
  - intros j. apply fmap_fails.
  - intros v j [H Hv] Hf. unfold fails, invoke, Parser_call, fmap, func.
    step_with H. apply is_None_false in Hv. rewrite Hv, Hf. apply returns_ret.
Qed.

Lemma fmap_failure_offsets_witness :
  succeeds (parse_letter_a "abc" 0) (PStr "a") 1 /\
  fails (fmap (fun _ => PNone) parse_letter_a "abc" 0) 1 /\
  fails (parse_letter_a "xbc" 0) 0 /\
  fails (fmap (fun _ => PNone) parse_letter_a "xbc" 0) 0.
Proof.
  assert (H1 : succeeds (parse_letter_a "abc" 0) (PStr "a") 1)
    by (split; [by_evaluation | discriminate]).
  assert (H2 : fails (parse_letter_a "xbc" 0) 0) by by_evaluation.
  split; [exact H1 | split; [| split; [exact H2 |]]].
  - exact (proj2 (fmap_failure_offsets (fun _ => PNone) parse_letter_a "abc" 0)
             _ _ H1 eq_refl).
  - exact (proj1 (fmap_failure_offsets (fun _ => PNone) parse_letter_a "xbc" 0)
             _ H2).
Defined.

(** ** many *)

Lemma many_loop_stops (p : pfun) (s : string) (n : nat) :
  forall (k : nat) (acc : list pyval) (idx : Z) (r : list pyval) (j : Z),
    many_loop p s k acc idx n = Some (r, j) ->
    exists xs, r = (acc ++ xs)%list /\ Forall (fun x => x <> PNone) xs /\
               exists i', p s j n = Some (PNone, i').
Proof.
  intro k. induction k as [| k IH]; intros acc idx r j H; [discriminate |].
  simpl in H. unfold Run.bind in H.
  destruct (p s idx n) as [[x idx2] |] eqn:E; [| discriminate].
  destruct (is_None x) eqn:Hx.
  - unfold ret in H. inversion H; subst.
    apply is_None_true in Hx. subst x.
    exists []. split; [now rewrite app_nil_r | split; [constructor | now exists idx2]].
  - apply is_None_false in Hx.
    destruct (IH _ _ _ _ H) as (xs & -> & Hall & Hstop).
    exists (x :: xs). split; [now rewrite <- app_assoc |].
    split; [now constructor | exact Hstop].
Qed.

(** X12: [many] stops where the parser fails. Whenever [many(p)] returns,
    its value is a list without [None], and the parser fails when it
    is started at the offset [many(p)] returned. *)
Theorem many_stops_at_failure (p : pfun) (s : string) (i : Z) (n : nat)
    (v : pyval) (j : Z) :
  many p s i n = Some (v, j) ->
  exists xs, v = PList xs /\ Forall (fun x => x <> PNone) xs /\
             exists i', p s j n = Some (PNone, i').
Proof.
  unfold invoke, Parser_call, many, func.
  destruct (many_loop p s n [] i n) as [[r j'] |] eqn:E; [| discriminate].
  intro H. inversion H; subst.
  destruct (many_loop_stops p s n _ _ _ _ _ E) as (xs & -> & Hall & Hstop).
  now exists xs.
Qed.

Lemma many_stops_at_failure_witness :
  exists xs, PList [PStr "a"; PStr "a"; PStr "a"] = PList xs /\
             Forall (fun x => x <> PNone) xs /\
             exists i', parse_letter_a "aaab" 3 5%nat = Some (PNone, i').
Proof.
  apply (many_stops_at_failure parse_letter_a "aaab" 0 5%nat
           (PList [PStr "a"; PStr "a"; PStr "a"]) 3).
  reflexivity.
Defined.

Lemma many_loop_of_many (p : pfun) (s : string) (n : nat) :
  forall (k : nat) (acc : list pyval) (idx : Z),
    many_loop (many p) s k acc idx n = None.
Proof.
  intro k. induction k as [| k IH]; intros acc idx; [reflexivity |].
  cbn [many_loop]. unfold Run.bind.
  destruct (invoke (many p) s idx n) as [[v j] |] eqn:E; [| reflexivity].
  destruct (many_value_is_list p s idx n v j E) as [xs ->].
  cbn [is_None]. apply IH.
Qed.

(** X13: a repetition of a repetition never returns: [many(p)] never
    fails, so the loop of [many(many(p))] never ends, whatever [p], the
    text and the offset are. *)
Theorem many_of_many_hangs (p : pfun) (s : string) (i : Z) :
  hangs (many (many p) s i).
Proof.
  intro n. unfold invoke at 1, Parser_call, many at 1, func.
  now rewrite many_loop_of_many.
Qed.

(** * The parsers of the demonstration *)

(** ** Facts about strings *)

Lemma get_out_of_range (s : string) : forall n : nat,
  (String.length s <= n)%nat -> String.get n s = None.
Proof.
  induction s as [| a s IH]; intros n Hn; [reflexivity |].
  simpl in Hn. destruct n as [| n]; [lia |]. simpl. apply IH. lia.
Qed.

Lemma substring_all (s : string) : substring 0 (String.length s) s = s.
Proof. induction s as [| a s IH]; simpl; [reflexivity | now rewrite IH]. Qed.

Lemma substring_of_suffix (s : string) : forall p m : nat,
  substring 0 m (substring p (String.length s - p) s) = substring p m s.
Proof.
  induction s as [| a s IH]; intros p m.
  - destruct p, m; reflexivity.
  - destruct p as [| p].
    + rewrite Nat.sub_0_r, substring_all. reflexivity.
    + simpl. apply IH.
Qed.

Lemma substring_length (s : string) : forall p m : nat,
  String.length (substring p m s) = Nat.min m (String.length s - p).
Proof.
  induction s as [| a s IH]; intros p m.
  - destruct p, m; reflexivity.
  - destruct p as [| p].
    + destruct m as [| m]; [reflexivity |]. simpl. now rewrite IH, Nat.sub_0_r.
    + simpl. apply IH.
Qed.

(** [startswith] from a position inside the text compares the slice of
    the length of the prefix taken at that position. *)
Lemma py_startswith_slice (s pre : string) (pos : Z) :
  0 <= pos -> pre <> "" ->
  py_startswith s pre pos =
  (substring (Z.to_nat pos) (String.length pre) s =? pre)%string.
Proof.
  intros Hpos Hpre. unfold py_startswith.
  replace (pos <? 0) with false by (symmetry; apply Z.ltb_ge; exact Hpos).
  assert (Hlen : (0 < String.length pre)%nat)
    by (destruct pre; [now elim Hpre | simpl; lia]).
  destruct (len s <? pos + len pre) eqn:Hfit.
  - apply Z.ltb_lt in Hfit. symmetry. apply String.eqb_neq. intro E.
    apply (f_equal String.length) in E. rewrite substring_length in E.
    unfold len in Hfit. lia.
  - destruct (String.prefix pre (drop pos s)) eqn:Hp.
    + apply prefix_correct in Hp. unfold drop in Hp.
      rewrite substring_of_suffix in Hp. symmetry. now apply String.eqb_eq.
    + symmetry. apply String.eqb_neq. intro E.
      assert (Hp' : String.prefix pre (drop pos s) = true).
      { apply prefix_correct. unfold drop. now rewrite substring_of_suffix. }
      congruence.
Qed.

(** A negative start is counted from the end of the text, and from the
    beginning when it reaches before it. *)
Lemma py_startswith_negative (s pre : string) (pos : Z) :
  pos < 0 ->
  py_startswith s pre pos = py_startswith s pre (Z.max 0 (pos + len s)).
Proof.
  intro Hneg. unfold py_startswith.
  replace (pos <? 0) with true by (symmetry; apply Z.ltb_lt; exact Hneg).
  replace (Z.max 0 (pos + len s) <? 0) with false
    by (symmetry; apply Z.ltb_ge; lia).
  reflexivity.
Qed.

(** ** parse_a *)

Lemma parse_a_from_get (s : string) (pos : Z) (n : nat) :
  0 <= pos ->
  parse_a s pos n =
  match String.get (Z.to_nat pos) s with
  | Some c => if Ascii.eqb c "a" then Some (PStr "a", pos + 1)
              else Some (PNone, pos)
  | None => Some (PNone, pos)
  end.
Proof.
  intro Hpos. unfold parse_a, py_index.
  destruct (pos <? len s) eqn:Hlt.
  - apply Z.ltb_lt in Hlt.
    replace (0 <=? pos) with true by (symmetry; apply Z.leb_le; exact Hpos).
    simpl. unfold len in Hlt.
    destruct (get_in_range s (Z.to_nat pos) ltac:(lia)) as [c ->].
    destruct (Ascii.eqb c "a"); reflexivity.
  - apply Z.ltb_ge in Hlt. unfold len in Hlt.
    rewrite (get_out_of_range s (Z.to_nat pos)) by lia. reflexivity.
Qed.

(** X14: from an offset [pos >= 0], [parse_a] succeeds with ["a"] and
    offset [pos + 1] when the character at [pos] is ['a']; in every other
    case, the end of the text and the empty text included, it fails at
    [pos]; it never raises. *)
Theorem parse_a_in_text (s : string) (pos : Z) (n : nat) :
  0 <= pos ->
  (String.get (Z.to_nat pos) s = Some "a"%char ->
     parse_a s pos n = Some (PStr "a", pos + 1)) /\
  (String.get (Z.to_nat pos) s <> Some "a"%char ->
     parse_a s pos n = Some (PNone, pos)).
Proof.
  intro Hpos. rewrite (parse_a_from_get s pos n Hpos). split.
  - intros ->. reflexivity.
  - intro Hne. destruct (String.get (Z.to_nat pos) s) as [c |]; [| reflexivity].
    destruct (Ascii.eqb c "a") eqn:E; [| reflexivity].
    apply Ascii.eqb_eq in E. subst c. now elim Hne.
Qed.

Lemma parse_a_in_text_witness :
  0 <= 1 /\
  parse_a "banana" 1 0%nat = Some (PStr "a", 1 + 1) /\
  parse_a "" 0 0%nat = Some (PNone, 0) /\
  parse_a "banana" 6 0%nat = Some (PNone, 6).
Proof.
  split; [lia |]. split; [| split].
  - apply (proj1 (parse_a_in_text "banana" 1 0%nat ltac:(lia))). reflexivity.
  - apply (proj2 (parse_a_in_text "" 0 0%nat ltac:(lia))). discriminate.
  - apply (proj2 (parse_a_in_text "banana" 6 0%nat ltac:(lia))). discriminate.
Defined.

(** X15: from a negative offset [parse_a] indexes the text from its end:
    for [-len(text) <= pos < 0] it looks at the character at
    [pos + len(text)] and, when that is ['a'], succeeds with offset
    [pos + 1]; below [-len(text)] the indexing raises and the call has no
    result. *)
Theorem parse_a_negative (s : string) (pos : Z) (n : nat) :
  pos < 0 ->
  (pos < - len s -> parse_a s pos n = None) /\
  (- len s <= pos ->
     String.get (Z.to_nat (pos + len s)) s = Some "a"%char ->
     parse_a s pos n = Some (PStr "a", pos + 1)) /\
  (- len s <= pos ->
     String.get (Z.to_nat (pos + len s)) s <> Some "a"%char ->
     parse_a s pos n = Some (PNone, pos)).
Proof.
  intro Hneg. unfold parse_a, py_index.
  assert (Hlen : 0 <= len s) by (unfold len; lia).
  replace (pos <? len s) with true by (symmetry; apply Z.ltb_lt; lia).
  replace (0 <=? pos) with false by (symmetry; apply Z.leb_gt; exact Hneg).
  replace (pos <? 0) with true by (symmetry; apply Z.ltb_lt; exact Hneg).
  cbn [andb]. rewrite andb_true_r. split; [| split].
  - intro Hlow.
    replace (- len s <=? pos) with false by (symmetry; apply Z.leb_gt; exact Hlow).
    reflexivity.
  - intros Hlow Hget.
    replace (- len s <=? pos) with true by (symmetry; apply Z.leb_le; exact Hlow).
    rewrite Hget. reflexivity.
  - intros Hlow Hget.
    replace (- len s <=? pos) with true by (symmetry; apply Z.leb_le; exact Hlow).
    unfold len in *.
    destruct (get_in_range s (Z.to_nat (pos + Z.of_nat (String.length s)))
                ltac:(lia)) as [c Hc].
    rewrite Hc in *. destruct (Ascii.eqb c "a") eqn:E; [| reflexivity].
    apply Ascii.eqb_eq in E. subst c. now elim Hget.
Qed.

Lemma parse_a_negative_witness :
  -1 < 0 /\
  parse_a "banana" (-1) 0%nat = Some (PStr "a", -1 + 1) /\
  parse_a "banana" (-7) 0%nat = None.
Proof.
  split; [lia |]. split.
  - apply (proj1 (proj2 (parse_a_negative "banana" (-1) 0%nat ltac:(lia))));
      [vm_compute; discriminate | reflexivity].
  - apply (proj1 (parse_a_negative "banana" (-7) 0%nat ltac:(lia))).
    reflexivity.
Defined.

Lemma many_run_of_a (s : string) : forall (k : nat) (i : Z),
  0 <= i ->
  (forall m : nat, (m < k)%nat ->
     String.get (Z.to_nat i + m) s = Some "a"%char) ->
  String.get (Z.to_nat i + k) s <> Some "a"%char ->
  many_run parse_letter_a s i (repeat (PStr "a") k) (i + Z.of_nat k).
Proof.
  induction k as [| k IH]; intros i Hi Hall Hstop.
  - rewrite Nat.add_0_r in Hstop. replace (i + Z.of_nat 0) with i by lia.
    apply many_run_stop with (i' := i). exists 0%nat. intros n _.
    change (invoke parse_letter_a s i n) with (parse_a s i n).
    rewrite (parse_a_from_get s i n Hi).
    destruct (String.get (Z.to_nat i) s) as [c |]; [| reflexivity].
    destruct (Ascii.eqb c "a") eqn:E; [| reflexivity].
    apply Ascii.eqb_eq in E. subst c. now elim Hstop.
  - simpl repeat. apply many_run_step with (i2 := i + 1).
    + split; [| discriminate]. exists 0%nat. intros n _.
      change (invoke parse_letter_a s i n) with (parse_a s i n).
      rewrite (parse_a_from_get s i n Hi).
      specialize (Hall 0%nat ltac:(lia)). rewrite Nat.add_0_r in Hall.
      now rewrite Hall.
    + replace (i + Z.of_nat (S k)) with (i + 1 + Z.of_nat k) by lia.
      apply IH; [lia | |].
      * intros m Hm. specialize (Hall (S m) ltac:(lia)).
        replace (Z.to_nat (i + 1) + m)%nat with (Z.to_nat i + S m)%nat by lia.
        exact Hall.
      * replace (Z.to_nat (i + 1) + k)%nat with (Z.to_nat i + S k)%nat by lia.
        exact Hstop.
Qed.

(** X16: [many(parse_letter_a)] reads a whole run of ['a']: started at
    [i >= 0] on a text that holds ['a'] at the [k] positions from [i] on
    and something else, or nothing, at position [i + k], it succeeds with
    the list of [k] strings ["a"] at offset [i + k]. *)
Theorem many_parse_a_run (s : string) (k : nat) (i : Z) :
  0 <= i ->
  (forall m : nat, (m < k)%nat ->
     String.get (Z.to_nat i + m) s = Some "a"%char) ->
  String.get (Z.to_nat i + k) s <> Some "a"%char ->
  succeeds (many parse_letter_a s i) (PList (repeat (PStr "a") k))
           (i + Z.of_nat k).
Proof.
  intros Hi Hall Hstop. split; [| discriminate].
  apply many_returns_run. now apply many_run_of_a.
Qed.

Lemma many_parse_a_run_witness :
  succeeds (many parse_letter_a "baaab" 1) (PList (repeat (PStr "a") 3))
           (1 + Z.of_nat 3).
Proof.
  apply (many_parse_a_run "baaab" 3 1); [lia | | vm_compute; discriminate].
  intros m Hm.
  destruct m as [| [| [| m]]]; [reflexivity | reflexivity | reflexivity | lia].
Defined.

(** ** parse_true and parse_false *)

(** X17: from an offset [pos >= 0], [parse_true] succeeds exactly when
    the four characters of the text at [pos] are ["true"], with offset
    [pos + 4], and fails at [pos] otherwise; [parse_false] does the same
    with the five characters ["false"] and offset [pos + 5]. Neither
    raises, at the end of the text or beyond. *)
Theorem parse_literals_in_text (s : string) (pos : Z) (n : nat) :
  0 <= pos ->
  parse_true s pos n =
    (if (substring (Z.to_nat pos) 4 s =? "true")%string
     then Some (PStr "true", pos + 4) else Some (PNone, pos)) /\
  parse_false s pos n =
    (if (substring (Z.to_nat pos) 5 s =? "false")%string
     then Some (PStr "false", pos + 5) else Some (PNone, pos)).
Proof.
  intro Hpos.
  unfold invoke, Parser_call, parse_true, func, parse_true_fn, parse_false.
  rewrite !py_startswith_slice by (assumption || discriminate).
  cbn [String.length]. split.
  - now destruct (substring (Z.to_nat pos) 4 s =? "true")%string.
  - now destruct (substring (Z.to_nat pos) 5 s =? "false")%string.
Qed.

Lemma parse_literals_in_text_witness :
  0 <= 1 /\
  parse_true "atrue" 1 0%nat = Some (PStr "true", 1 + 4) /\
  parse_false "atrue" 1 0%nat = Some (PNone, 1).
Proof.
  split; [lia |].
  exact (parse_literals_in_text "atrue" 1 0%nat ltac:(lia)).
Defined.

(** X18: from a negative offset [pos], [parse_true] and [parse_false]
    compare the text at [max(0, pos + len(text))], as [startswith] counts
    a negative start from the end, but the offset of a success is still
    [pos + 4] (or [pos + 5]): it is not the end of the text that was
    matched. *)
Theorem parse_literals_negative (s : string) (pos : Z) (n : nat) :
  pos < 0 ->
  parse_true s pos n =
    (if (substring (Z.to_nat (Z.max 0 (pos + len s))) 4 s =? "true")%string
     then Some (PStr "true", pos + 4) else Some (PNone, pos)) /\
  parse_false s pos n =
    (if (substring (Z.to_nat (Z.max 0 (pos + len s))) 5 s =? "false")%string
     then Some (PStr "false", pos + 5) else Some (PNone, pos)).
Proof.
  intro Hneg.
  unfold invoke, Parser_call, parse_true, func, parse_true_fn, parse_false.
  rewrite !(py_startswith_negative s _ pos Hneg).
  rewrite !py_startswith_slice by (lia || discriminate).
  cbn [String.length]. split.
  - now destruct (substring _ 4 s =? "true")%string.
  - now destruct (substring _ 5 s =? "false")%string.
Qed.

Lemma parse_literals_negative_witness :
  -4 < 0 /\
  parse_true "xtrue" (-4) 0%nat = Some (PStr "true", -4 + 4) /\
  parse_false "xtrue" (-4) 0%nat = Some (PNone, -4).
Proof.
  split; [lia |].
  exact (parse_literals_negative "xtrue" (-4) 0%nat ltac:(lia)).
Defined.

(** ** regex *)

(** X19: a parser built by [regex] reports every failure at the offset
    it was started from, whatever the pattern and whatever the matcher
    answers: the only result without a value is the [(None, idx)] of the
    branch taken when there is no match. *)
Theorem regex_failure_contract (sre : engine) (pat : string) :
  failure_contract (regex sre pat).
Proof.
  intros s i n j. unfold regex.
  destruct (Pattern_match sre pat s i) as [[g e] |]; unfold ret; intro E;
    now inversion E.
Qed.

(** ** many(parse_letter_a) on any text *)

Lemma parse_a_below_text (s : string) (pos : Z) (n : nat) :
  pos < - len s -> parse_a s pos n = None.
Proof.
  intro Hlow. unfold parse_a, py_index.
  assert (Hlen : 0 <= len s) by (unfold len; lia).
  replace (pos <? len s) with true by (symmetry; apply Z.ltb_lt; lia).
  replace (0 <=? pos) with false by (symmetry; apply Z.leb_gt; lia).
  replace (- len s <=? pos) with false by (symmetry; apply Z.leb_gt; exact Hlow).
  reflexivity.
Qed.

Lemma many_first_call_hangs (p : pfun) (s : string) (i : Z) :
  hangs (p s i) -> hangs (many p s i).
Proof.
  intros H n. unfold invoke, Parser_call, many, func.
  destruct n as [| n]; [reflexivity |].
  cbn [many_loop]. unfold Run.bind. now rewrite H.
Qed.

(** X20: on every text and from every offset [i >= 0],
    [many(parse_letter_a)] returns, with a list of at most [len(s) - i]
    values; started below [-len(s)] it has no result, because the first
    call of [parse_a] raises. *)
Theorem many_parse_a_total (s : string) (i : Z) :
  (0 <= i ->
     exists xs j, succeeds (many parse_letter_a s i) (PList xs) j /\
                  Z.of_nat (List.length xs) <= Z.max 0 (len s - i)) /\
  (i < - len s -> hangs (many parse_letter_a s i)).
Proof.
  split.
  - intro Hi.
    destruct (many_run_exists parse_letter_a s i) with
      (m := Z.to_nat (len s - i)) (idx := i) as (xs & j & Hrun & Hlen);
      try lia.
    + intros idx Hidx. apply parse_a_returns. lia.
    + intros idx v j Hidx [[n Hn] Hv].
      destruct (parse_a_step s idx n v j (Hn n (Nat.le_refl n)) Hv) as [-> Hlt].
      lia.
    + exists xs, j. split; [| exact Hlen].
      split; [now apply many_returns_run | discriminate].
  - intro Hlow. apply many_first_call_hangs.
    intro n. exact (parse_a_below_text s i n Hlow).
Qed.

Lemma many_parse_a_total_witness :
  (exists xs j, succeeds (many parse_letter_a "aab" 2) (PList xs) j /\
                Z.of_nat (List.length xs) <= Z.max 0 (len "aab" - 2)) /\
  hangs (many parse_letter_a "aab" (-4)).
Proof.
  split.
  - apply (proj1 (many_parse_a_total "aab" 2)). lia.
  - apply (proj2 (many_parse_a_total "aab" (-4))). vm_compute. reflexivity.
Defined.
